(** * Locale maintenance scripts: [align.py] and [check_keys.py]

    A shallow embedding of the two scripts under
    [packages/web/public/locales/] and the properties of their two
    routines, [align_json] and [get_paths], together with the
    set-difference report computed by [check_keys.py]. *)

From Stdlib Require Import ZArith Floats.SpecFloat Ascii.
From stdpp Require Import gmap strings list sorting pretty.


(** ** Documents

    The value produced by [json.load]: [None], [bool], [int], [float],
    [str], [list] and [dict].  A [dict] keeps its items in insertion order,
    so it is an association list; its keys are [str].  Python strings are
    carried as their UTF-8 bytes, for which the byte-wise order of
    [String.le] is the code point order used by [sorted]. *)

Local Unset Elimination Schemes.
Inductive json : Type :=
| JNull
| JBool (b : bool)
| JInt (n : Z)
| JFloat (x : spec_float)
| JStr (s : string)
| JList (elems : list json)
| JDict (items : list (string * json)).
Local Set Elimination Schemes.

(** The induction principle that reaches the values stored in a [dict]
    and the elements of a [list]. *)
Definition json_nested_ind (P : json → Prop)
    (Hnull : P JNull)
    (Hbool : ∀ b, P (JBool b))
    (Hint : ∀ n, P (JInt n))
    (Hfloat : ∀ x, P (JFloat x))
    (Hstr : ∀ s, P (JStr s))
    (Hlist : ∀ elems, Forall P elems → P (JList elems))
    (Hdict : ∀ items, Forall (λ kv, P kv.2) items → P (JDict items)) :
    ∀ j, P j :=
  fix go (j : json) : P j :=
    match j with
    | JNull => Hnull
    | JBool b => Hbool b
    | JInt n => Hint n
    | JFloat x => Hfloat x
    | JStr s => Hstr s
    | JList elems =>
        Hlist elems
          ((fix elems_ok (l : list json) : Forall P l :=
              match l with
              | [] => Forall_nil_2 P
              | e :: l' => Forall_cons_2 P e l' (go e) (elems_ok l')
              end) elems)
    | JDict items =>
        Hdict items
          ((fix items_ok (l : list (string * json)) : Forall (λ kv, P kv.2) l :=
              match l with
              | [] => Forall_nil_2 _
              | kv :: l' => Forall_cons_2 _ kv l' (go kv.2) (items_ok l')
              end) items)
    end.

(** [isinstance(x, dict)] *)
Definition is_dict (x : json) : bool :=
  match x with JDict _ => true | _ => false end.

(** ** Exceptions *)

Inductive exn : Type :=
| KeyError (key : string)
| RecursionError.

Inductive result (A : Type) : Type :=
| Ok (a : A)
| Raise (e : exn).
Arguments Ok {A} a.
Arguments Raise {A} e.

Definition result_bind {A B} (f : A → result B) (m : result A) : result B :=
  match m with
  | Ok a => f a
  | Raise e => Raise e
  end.

#[global] Instance result_mret : MRet result := λ A, @Ok A.
#[global] Instance result_mbind : MBind result := λ A B, @result_bind A B.

(** [for key in keys: state = body(state, key)], stopping at the first
    exception. *)
Fixpoint for_each {S K} (keys : list K) (body : S → K → result S) (s : S)
    : result S :=
  match keys with
  | [] => Ok s
  | key :: keys' => s' ← body s key; for_each keys' body s'
  end.

(** ** Python [dict] operations on an insertion-ordered association list *)

Section PyDict.
Context {V : Type}.
Implicit Types (d : list (string * V)) (k : string) (v : V).

(** [d.keys()] *)
Definition dict_keys d : list string := d.*1.

(** [d.get(k)] *)
Fixpoint dict_get k d : option V :=
  match d with
  | [] => None
  | (k', v) :: d' => if decide (k = k') then Some v else dict_get k d'
  end.

(** [k in d] *)
Definition dict_contains k d : bool :=
  match dict_get k d with Some _ => true | None => false end.

(** [d[k]], raising [KeyError] on a missing key *)
Definition dict_getitem k d : result V :=
  match dict_get k d with Some v => Ok v | None => Raise (KeyError k) end.

(** [d[k] = v]: an existing key keeps its position and takes the new
    value, a new key goes to the end. *)
Fixpoint dict_setitem k v d : list (string * V) :=
  match d with
  | [] => [(k, v)]
  | (k', v') :: d' =>
      if decide (k = k') then (k, v) :: d' else (k', v') :: dict_setitem k v d'
  end.
End PyDict.

(** ** [align.py] *)

(** [align_json(template, target)].  [fuel] is the number of nested calls
    the interpreter still allows; a call made with none left raises
    [RecursionError]. *)
Fixpoint align_json (fuel : nat) (template target : json) : result json :=
  match fuel with
  | O => Raise RecursionError
  | S fuel' =>
      match template, target with
      | JDict tpl, JDict tgt =>
          new_obj ← for_each (dict_keys tpl) (λ new_obj key,
            if dict_contains key tgt then
              a ← dict_getitem key tpl;
              b ← dict_getitem key tgt;
              r ← align_json fuel' a b;
              mret (dict_setitem key r new_obj)
            else mret new_obj) [];
          new_obj ← for_each (dict_keys tgt) (λ new_obj key,
            if negb (dict_contains key new_obj) then
              b ← dict_getitem key tgt;
              mret (dict_setitem key b new_obj)
            else mret new_obj) new_obj;
          mret (JDict new_obj)
      | _, _ => mret target
      end
  end.

(** ** [check_keys.py] *)

(** [f"{current_path}.{k}" if current_path else k] *)
Definition new_path (current_path k : string) : string :=
  match current_path with
  | "" => k
  | _ => current_path +:+ "." +:+ k
  end.

(** [get_paths(data, current_path)] *)
Fixpoint get_paths (data : json) (current_path : string) : gset string :=
  match data with
  | JDict d =>
      fold_left (λ paths kv,
        (paths ∪ {[ new_path current_path kv.1 ]})
          ∪ get_paths kv.2 (new_path current_path kv.1)) d ∅
  | _ => ∅
  end.

(** [sorted(l)] on a list of [str] *)
Definition sorted (l : list string) : list string := merge_sort String.le l.

(** [missing_in_fr = sorted(list(en_keys - fr_keys))] *)
Definition missing_in_fr (en_keys fr_keys : gset string) : list string :=
  sorted (elements (en_keys ∖ fr_keys)).

(** [extra_in_fr = sorted(list(fr_keys - en_keys))] *)
Definition extra_in_fr (en_keys fr_keys : gset string) : list string :=
  sorted (elements (fr_keys ∖ en_keys)).

(** ** The aligner as the specification words it

    Both sides mappings: the shared keys in the reference's order, each
    with the alignment of the two subtrees, then the target's keys that
    were not inserted, in the target's order, with the target's values.
    Anything else: the target. *)

Section SharedPart.
Variable rec : json → json → json.
Variable target : list (string * json).

Fixpoint shared_part (reference : list (string * json))
    : list (string * json) :=
  match reference with
  | [] => []
  | (k, rv) :: reference' =>
      match dict_get k target with
      | Some tv => (k, rec rv tv) :: shared_part reference'
      | None => shared_part reference'
      end
  end.
End SharedPart.

Definition not_inserted (inserted target : list (string * json))
    : list (string * json) :=
  filter (λ kv, kv.1 ∉ dict_keys inserted) target.

Fixpoint align (reference target : json) : json :=
  match reference, target with
  | JDict r, JDict t =>
      let shared := shared_part align t r in
      JDict (shared ++ not_inserted shared t)
  | _, _ => target
  end.

(** ** Key paths as the specification words them

    The key sequences from the root to every key of every mapping that is
    reached through mappings only, and the key path of such a sequence:
    its keys joined with a dot. *)

Fixpoint key_paths (data : json) : list (list string) :=
  match data with
  | JDict d => kv ← d; [kv.1] :: (cons kv.1 <$> key_paths kv.2)
  | _ => []
  end.

Definition dotted (keys : list string) : string := String.concat "." keys.

Definition collectPaths_spec (document : json) : gset string :=
  list_to_set (dotted <$> key_paths document).

(** ** Sample documents of the specification *)

Definition scenario1_reference : json :=
  JDict [("a", JDict [("b", JInt 1); ("c", JInt 2)])].
Definition scenario1_target : json :=
  JDict [("a", JDict [("c", JInt 99); ("d", JInt 4)])].

Definition scenario2_reference : json := JDict [("x", JInt 1)].
Definition scenario2_target : json := JDict [("x", JDict [("y", JInt 2)])].

Definition scenario3_reference : json :=
  JDict [("a", JInt 1); ("b", JDict [("c", JInt 2)])].
Definition scenario3_target : json :=
  JDict [("a", JInt 1); ("b", JDict [("d", JInt 3)])].

(** Two documents with the same keys in different orders. *)
Definition reordered_reference : json :=
  JDict [("a", JInt 1); ("b", JDict [("c", JInt 2); ("d", JInt 3)])].
Definition reordered_target : json :=
  JDict [("b", JDict [("d", JInt 30); ("c", JInt 20)]); ("a", JInt 10)].

(** A document whose root key is the empty string. *)
Definition empty_key_document : json := JDict [("", JDict [("x", JInt 1)])].

(** The keys of the root mapping. *)
Definition root_keys (document : json) : list string :=
  match document with
  | JDict items => dict_keys items
  | _ => []
  end.

(** ** Well-formed documents and nesting depth *)

(** A [dict] holds each key once, at every level: the invariant of every
    Python [dict], which the association list does not enforce by itself. *)
Fixpoint wf (j : json) : bool :=
  match j with
  | JList elems => forallb wf elems
  | JDict items =>
      bool_decide (NoDup (dict_keys items)) && forallb (λ kv, wf kv.2) items
  | _ => true
  end.

(** Number of mappings nested inside one another. *)
Fixpoint depth (j : json) : nat :=
  match j with
  | JDict items => S (max_list ((λ kv, depth kv.2) <$> items))
  | _ => 0
  end.

(** ** The report printed by [check_keys.py] *)

(** The line feed that [print] writes after its argument, and that the
    second header starts with. *)
Definition newline : string := String "010"%char "".

(** The arguments of the calls to [print] made by the script once the two
    documents are loaded, in order. *)
Definition check_keys_prints (data_en data_fr : json) : list string :=
  let en_keys := get_paths data_en "" in
  let fr_keys := get_paths data_fr "" in
  let missing := missing_in_fr en_keys fr_keys in
  let extra := extra_in_fr en_keys fr_keys in
  ["--- CLÉS MANQUANTES EN FRANÇAIS (" +:+ pretty (length missing) +:+ ") ---"]
  ++ ((λ key, "[-] " +:+ key) <$> missing)
  ++ [newline +:+ "--- CLÉS EN TROP EN FRANÇAIS ("
        +:+ pretty (length extra) +:+ ") ---"]
  ++ ((λ key, "[+] " +:+ key) <$> extra).

(** What reaches the standard output: every argument followed by a line
    feed. *)
Definition check_keys_stdout (data_en data_fr : json) : string :=
  String.concat "" ((λ line, line +:+ newline) <$> check_keys_prints data_en data_fr).

(** ** Reading a document by key sequence, and what the aligner ignores *)

(** [document[k1][k2]...[kn]] through mappings only. *)
Fixpoint value_at (keys : list string) (document : json) : option json :=
  match keys with
  | [] => Some document
  | k :: keys' =>
      match document with
      | JDict items => dict_get k items ≫= value_at keys'
      | _ => None
      end
  end.

(** The keys of a document without its values: every value that is not a
    mapping becomes [None]. *)
Fixpoint skeleton (document : json) : json :=
  match document with
  | JDict items => JDict ((λ kv, (kv.1, skeleton kv.2)) <$> items)
  | _ => JNull
  end.

(** A key without the separator, and a document all of whose keys
    (reached through mappings) are such keys. *)
Fixpoint dot_free (key : string) : bool :=
  match key with
  | "" => true
  | String c key' => negb (Ascii.eqb c "."%char) && dot_free key'
  end.

Definition keys_dot_free (document : json) : bool :=
  forallb (forallb dot_free) (key_paths document).

(** ** Facts about the [dict] operations *)

Section PyDictFacts.
Context {V : Type}.
Implicit Types (d : list (string * V)) (k : string) (v : V).

Lemma dict_get_Some_elem k v d : dict_get k d = Some v → (k, v) ∈ d.
Proof.
  induction d as [|[k' v'] d IH]; simpl; [done|].
  case_decide as Hk.
  - intros [= ->]. subst k'. left.
  - intros Hget. right. auto.
Qed.

Lemma dict_get_None k d : dict_get k d = None ↔ k ∉ dict_keys d.
Proof.
  unfold dict_keys. induction d as [|[k' v'] d IH]; simpl.
  - split; [intros _; apply not_elem_of_nil | done].
  - rewrite not_elem_of_cons. case_decide; [|tauto].
    split; [done | tauto].
Qed.

Lemma dict_get_is_Some k d : is_Some (dict_get k d) ↔ k ∈ dict_keys d.
Proof.
  rewrite <-not_eq_None_Some, dict_get_None.
  split; [apply dec_stable | auto].
Qed.

Lemma dict_get_NoDup k v d :
  NoDup (dict_keys d) → (k, v) ∈ d → dict_get k d = Some v.
Proof.
  unfold dict_keys. induction d as [|[k' v'] d IH]; simpl.
  - intros _ Hin. by apply elem_of_nil in Hin.
  - rewrite NoDup_cons. intros [Hfresh Hnd] Hin.
    apply elem_of_cons in Hin as [[= -> ->]|Hin].
    + by rewrite decide_True.
    + rewrite decide_False; [auto|].
      intros ->. apply Hfresh. by apply (list_elem_of_fmap_2 fst _ (k', v)).
Qed.

Lemma dict_contains_true k d : dict_contains k d = true ↔ k ∈ dict_keys d.
Proof.
  rewrite <-dict_get_is_Some. unfold dict_contains.
  destruct (dict_get k d); split; (done || eauto || by intros []).
Qed.

Lemma dict_contains_false k d : dict_contains k d = false ↔ k ∉ dict_keys d.
Proof.
  rewrite <-dict_contains_true. by destruct (dict_contains k d).
Qed.

Lemma dict_setitem_fresh k v d :
  k ∉ dict_keys d → dict_setitem k v d = d ++ [(k, v)].
Proof.
  unfold dict_keys. induction d as [|[k' v'] d IH]; simpl; [done|].
  rewrite not_elem_of_cons. intros [Hne Hfresh].
  rewrite decide_False by done. by rewrite IH.
Qed.

Lemma dict_get_app k d1 d2 :
  dict_get k (d1 ++ d2) =
    match dict_get k d1 with Some v => Some v | None => dict_get k d2 end.
Proof.
  induction d1 as [|[k' v'] d1 IH]; simpl; [done|]. by case_decide.
Qed.

Lemma dict_keys_app d1 d2 : dict_keys (d1 ++ d2) = dict_keys d1 ++ dict_keys d2.
Proof. apply fmap_app. Qed.
End PyDictFacts.

(** ** Well-formedness and depth of the parts of a mapping *)

Lemma wf_dict_NoDup items : wf (JDict items) = true → NoDup (dict_keys items).
Proof.
  simpl. intros [Hnd _]%andb_true_iff. by apply bool_decide_eq_true in Hnd.
Qed.

Lemma wf_dict_value items k v :
  wf (JDict items) = true → (k, v) ∈ items → wf v = true.
Proof.
  simpl. intros [_ Hall]%andb_true_iff Hin.
  rewrite forallb_forall in Hall. apply (Hall (k, v)).
  by apply list_elem_of_In.
Qed.

Lemma wf_dict_intro items :
  NoDup (dict_keys items) → (∀ k v, (k, v) ∈ items → wf v = true) →
  wf (JDict items) = true.
Proof.
  intros Hnd Hall. simpl. apply andb_true_iff. split.
  - by apply bool_decide_eq_true.
  - apply forallb_forall. intros [k v] Hin. apply (Hall k v).
    by apply list_elem_of_In.
Qed.

Lemma depth_dict_value items k v :
  (k, v) ∈ items → depth v < depth (JDict items).
Proof.
  intros Hin. simpl. apply Nat.lt_succ_r.
  apply max_list_elem_of_le.
  by apply (list_elem_of_fmap_2 (λ kv, depth kv.2) _ (k, v)).
Qed.

(** ** The two loops of [align_json] *)

Ltac run_result :=
  repeat (progress (simpl; unfold mbind, result_mbind, mret, result_mret,
                      result_bind, dict_getitem)).

Lemma not_inserted_snoc inserted k v l :
  k ∉ dict_keys l →
  not_inserted (inserted ++ [(k, v)]) l = not_inserted inserted l.
Proof.
  unfold not_inserted, dict_keys.
  induction l as [|[k' v'] l IH]; simpl; [done|].
  rewrite not_elem_of_cons. intros [Hne Hfresh].
  rewrite !filter_cons, IH by done. simpl.
  rewrite fmap_app. simpl.
  destruct (decide (k' ∉ inserted.*1)) as [Hk|Hk].
  - rewrite decide_True; [done|].
    rewrite elem_of_app, list_elem_of_singleton.
    intros [?|?]; [tauto | congruence].
  - rewrite decide_False; [done|].
    rewrite elem_of_app. tauto.
Qed.

Section AlignLoops.
Variables (fuel : nat) (tpl tgt : list (string * json)).

(** First loop: the shared keys, in the template's order. *)
Lemma shared_loop l acc :
  (∀ k rv, (k, rv) ∈ l → dict_get k tpl = Some rv) →
  NoDup (dict_keys l) →
  (∀ k, k ∈ dict_keys acc → k ∉ dict_keys l) →
  (∀ k rv tv, (k, rv) ∈ l → dict_get k tgt = Some tv →
     align_json fuel rv tv = Ok (align rv tv)) →
  for_each (dict_keys l) (λ new_obj key,
      if dict_contains key tgt then
        a ← dict_getitem key tpl;
        b ← dict_getitem key tgt;
        r ← align_json fuel a b;
        mret (dict_setitem key r new_obj)
      else mret new_obj) acc
  = Ok (acc ++ shared_part align tgt l).
Proof.
  revert acc. induction l as [|[k rv] l IH]; intros acc Hget Hnd Hacc Hrec.
  - simpl. by rewrite app_nil_r.
  - apply NoDup_cons in Hnd as [Hk Hnd].
    assert (k ∉ dict_keys acc) as Hfresh.
    { intros Hin. apply (Hacc _ Hin). left. }
    run_result. unfold dict_contains.
    rewrite (Hget k rv) by left.
    destruct (dict_get k tgt) as [tv|] eqn:Htv; run_result.
    + rewrite (Hrec k rv tv) by (done || left).
      rewrite dict_setitem_fresh by done.
      rewrite IH; [by rewrite <-app_assoc| | done | |].
      * intros k' rv' Hin. apply Hget. by right.
      * intros k' Hin Hin'. rewrite dict_keys_app in Hin.
        apply elem_of_app in Hin as [Hin|Hin].
        -- apply (Hacc _ Hin). by right.
        -- apply list_elem_of_singleton in Hin as ->. done.
      * intros k' rv' tv' Hin. apply Hrec. by right.
    + apply IH; [| done | |].
      * intros k' rv' Hin. apply Hget. by right.
      * intros k' Hin Hin'. apply (Hacc _ Hin). by right.
      * intros k' rv' tv' Hin. apply Hrec. by right.
Qed.

(** Second loop: the target's keys that the first loop did not insert. *)
Lemma rest_loop l acc :
  (∀ k v, (k, v) ∈ l → dict_get k tgt = Some v) →
  NoDup (dict_keys l) →
  for_each (dict_keys l) (λ new_obj key,
      if negb (dict_contains key new_obj) then
        b ← dict_getitem key tgt;
        mret (dict_setitem key b new_obj)
      else mret new_obj) acc
  = Ok (acc ++ not_inserted acc l).
Proof.
  revert acc. induction l as [|[k v] l IH]; intros acc Hget Hnd.
  - simpl. by rewrite app_nil_r.
  - apply NoDup_cons in Hnd as [Hk Hnd].
    assert (∀ k' v', (k', v') ∈ l → dict_get k' tgt = Some v') as Hget'.
    { intros k' v' Hin. apply Hget. by right. }
    run_result.
    destruct (dict_contains k acc) eqn:Hc; run_result.
    + apply dict_contains_true in Hc.
      rewrite IH by done. unfold not_inserted.
      by rewrite filter_cons_False by (simpl; auto).
    + apply dict_contains_false in Hc.
      rewrite (Hget k v) by left.
      rewrite dict_setitem_fresh by done.
      rewrite IH by done. rewrite not_inserted_snoc by done.
      unfold not_inserted. rewrite filter_cons_True by done.
      by rewrite <-app_assoc.
Qed.
End AlignLoops.

(** With calls to spare beyond the template's depth, [align_json] returns
    what the specification describes. *)
Lemma align_json_refines fuel : ∀ template target,
  wf template = true → wf target = true → depth template < fuel →
  align_json fuel template target = Ok (align template target).
Proof.
  induction fuel as [|fuel IH]; intros template target Hr Ht Hd; [lia|].
  destruct template as [| | | | | |tpl]; try done.
  destruct target as [| | | | | |tgt]; try done.
  cbn [align_json align].
  rewrite (shared_loop fuel tpl tgt tpl []).
  - run_result. rewrite (rest_loop tgt tgt); [done| |].
    + intros k v. apply dict_get_NoDup. by apply wf_dict_NoDup.
    + by apply wf_dict_NoDup.
  - intros k v. apply dict_get_NoDup. by apply wf_dict_NoDup.
  - by apply wf_dict_NoDup.
  - intros k Hin. by apply elem_of_nil in Hin.
  - intros k rv tv Hin Hget. apply IH.
    + by apply (wf_dict_value tpl k).
    + apply (wf_dict_value tgt k); [done|]. by apply dict_get_Some_elem.
    + pose proof (depth_dict_value tpl k rv Hin). lia.
Qed.

(** ** The shared part and the appended part of an aligned mapping *)

Lemma filter_ext_elem {A} (P Q : A → Prop)
    `{!∀ x, Decision (P x), !∀ x, Decision (Q x)} (l : list A) :
  (∀ x, x ∈ l → P x ↔ Q x) → filter P l = filter Q l.
Proof.
  induction l as [|a l IH]; intros Hext; [done|].
  rewrite !filter_cons, IH by (intros x Hx; apply Hext; by right).
  apply decide_ext, Hext. left.
Qed.

Section SharedPartFacts.
Variable rec : json → json → json.
Implicit Types (r t : list (string * json)) (k : string).

Lemma elem_of_shared_part t r k v :
  (k, v) ∈ shared_part rec t r ↔
  ∃ rv tv, (k, rv) ∈ r ∧ dict_get k t = Some tv ∧ v = rec rv tv.
Proof.
  induction r as [|[k' rv'] r IH]; simpl.
  - split; [by intros ?%elem_of_nil | by intros (? & ? & ?%elem_of_nil & _)].
  - destruct (dict_get k' t) as [tv'|] eqn:Hk'.
    + rewrite elem_of_cons, IH. split.
      * intros [[= -> ->]|(rv & tv & ? & ? & ?)].
        -- exists rv', tv'. split; [left | done].
        -- exists rv, tv. split; [by right | done].
      * intros (rv & tv & [[= -> ->]|Hin]%elem_of_cons & Htv & ->).
        -- left. congruence.
        -- right. by exists rv, tv.
    + rewrite IH. split.
      * intros (rv & tv & ? & ? & ?). exists rv, tv. split; [by right | done].
      * intros (rv & tv & [[= -> ->]|Hin]%elem_of_cons & Htv & ->).
        -- congruence.
        -- by exists rv, tv.
Qed.

Lemma dict_keys_shared_part t r :
  dict_keys (shared_part rec t r) = filter (λ k, k ∈ dict_keys t) (dict_keys r).
Proof.
  unfold dict_keys. induction r as [|[k rv] r IH]; simpl; [done|].
  rewrite filter_cons. destruct (dict_get k t) as [tv|] eqn:Hk.
  - rewrite decide_True by (apply dict_get_is_Some; eauto).
    rewrite fmap_cons. by f_equal.
  - by rewrite decide_False by (by apply (dict_get_None k t)).
Qed.

Lemma dict_get_shared_part t r k :
  dict_get k (shared_part rec t r) =
    match dict_get k r, dict_get k t with
    | Some rv, Some tv => Some (rec rv tv)
    | _, _ => None
    end.
Proof.
  induction r as [|[k' rv'] r IH]; simpl; [done|].
  destruct (decide (k = k')) as [->|Hne].
  - destruct (dict_get k' t) as [tv'|] eqn:Hk'; simpl.
    + by rewrite decide_True.
    + rewrite IH. by destruct (dict_get k' r).
  - destruct (dict_get k' t) as [tv'|] eqn:Hk'; simpl.
    + by rewrite decide_False.
    + done.
Qed.

(** A key of the target was inserted by the first loop exactly when the
    reference has it: the second loop appends the target-only keys. *)
Lemma not_inserted_target_only t r :
  not_inserted (shared_part rec t r) t = filter (λ kv, kv.1 ∉ dict_keys r) t.
Proof.
  unfold not_inserted. apply filter_ext_elem. intros [k v] Hin. simpl.
  rewrite dict_keys_shared_part, list_elem_of_filter.
  assert (k ∈ dict_keys t) by (by apply (list_elem_of_fmap_2 fst _ (k, v))).
  tauto.
Qed.

Lemma NoDup_shared_part t r :
  NoDup (dict_keys r) → NoDup (dict_keys (shared_part rec t r)).
Proof. rewrite dict_keys_shared_part. apply NoDup_filter. Qed.
End SharedPartFacts.

Lemma not_inserted_self d : not_inserted d d = [].
Proof.
  unfold not_inserted.
  assert (∀ l : list (string * json), (∀ kv, kv ∈ l → kv.1 ∈ dict_keys d) →
            filter (λ kv, kv.1 ∉ dict_keys d) l = []) as Hall.
  { induction l as [|kv l IH]; intros Hl; [done|].
    rewrite filter_cons_False; [apply IH|].
    - intros kv' ?. apply Hl. by right.
    - intros Hn. apply Hn, Hl. left. }
  apply Hall. intros kv. apply list_elem_of_fmap_2.
Qed.

Lemma not_inserted_idemp inserted t :
  not_inserted inserted (not_inserted inserted t) = not_inserted inserted t.
Proof. unfold not_inserted. by apply list_filter_filter_l. Qed.

Lemma not_inserted_app inserted t1 t2 :
  not_inserted inserted (t1 ++ t2) =
    not_inserted inserted t1 ++ not_inserted inserted t2.
Proof. apply filter_app. Qed.

(** The items of an aligned mapping are the target's items, each value
    aligned against the reference's value for the same key where the
    reference has one. *)
Lemma elem_of_align_items r t k v' :
  NoDup (dict_keys t) →
  (k, v') ∈ shared_part align t r ++ not_inserted (shared_part align t r) t ↔
  ∃ tv, (k, tv) ∈ t ∧
    ((∃ rv, (k, rv) ∈ r ∧ v' = align rv tv) ∨ ((k ∉ dict_keys r) ∧ v' = tv)).
Proof.
  intros Hnd.
  rewrite not_inserted_target_only, elem_of_app, elem_of_shared_part,
    list_elem_of_filter. simpl. split.
  - intros [(rv & tv & Hr & Ht & ->)|[Hk Ht]].
    + exists tv. split; [by apply dict_get_Some_elem | left; eauto].
    + exists v'. auto.
  - intros (tv & Ht & [(rv & Hr & ->)|[Hk ->]]).
    + left. exists rv, tv. auto using dict_get_NoDup.
    + right. done.
Qed.

(** ** Properties of the specified aligner *)

Lemma shared_part_self d l :
  (∀ k v, (k, v) ∈ l → dict_get k d = Some v ∧ align v v = v) →
  shared_part align d l = l.
Proof.
  induction l as [|[k v] l IH]; intros Hl; simpl; [done|].
  destruct (Hl k v) as [-> ->]; [left|].
  rewrite IH; [done|]. intros k' v' Hin. apply Hl. by right.
Qed.

Lemma align_self d : wf d = true → align d d = d.
Proof.
  induction d as [| | | | | |items IH] using json_nested_ind; intros Hwf; try done.
  simpl. rewrite (shared_part_self items items).
  - by rewrite not_inserted_self, app_nil_r.
  - intros k v Hin. split.
    + apply dict_get_NoDup; [by apply wf_dict_NoDup | done].
    + rewrite Forall_forall in IH. apply (IH (k, v) Hin).
      by apply (wf_dict_value items k).
Qed.

Lemma dict_keys_not_inserted inserted t :
  dict_keys (not_inserted inserted t)
  = filter (λ k, k ∉ dict_keys inserted) (dict_keys t).
Proof.
  unfold not_inserted.
  induction t as [|[k v] t IH]; [done|].
  change (dict_keys ((k, v) :: t)) with (k :: dict_keys t).
  rewrite !filter_cons. simpl.
  case_decide; [|done].
  change (dict_keys ((k, v) :: ?l)) with (k :: dict_keys l).
  by rewrite IH.
Qed.

Lemma wf_align r : ∀ t, wf r = true → wf t = true → wf (align r t) = true.
Proof.
  induction r as [| | | | | |r IH] using json_nested_ind; intros t Hr Ht; try done.
  destruct t as [| | | | | |t]; try done.
  pose proof (wf_dict_NoDup _ Hr) as Hndr.
  pose proof (wf_dict_NoDup _ Ht) as Hndt.
  simpl. apply wf_dict_intro.
  - rewrite dict_keys_app, dict_keys_not_inserted. apply NoDup_app.
    split_and!.
    + by apply NoDup_shared_part.
    + intros k Hk [Hn _]%list_elem_of_filter. done.
    + by apply NoDup_filter.
  - intros k v' (tv & Htv & [(rv & Hrv & ->)|[_ ->]])%elem_of_align_items;
      [|by apply (wf_dict_value t k)|done].
    rewrite Forall_forall in IH. apply (IH (k, rv) Hrv).
    + by apply (wf_dict_value r k).
    + by apply (wf_dict_value t k).
Qed.

Lemma shared_part_realign r t l :
  (∀ k rv, (k, rv) ∈ l → dict_get k r = Some rv ∧
     ∀ tv, dict_get k t = Some tv → align rv (align rv tv) = align rv tv) →
  shared_part align
    (shared_part align t r ++ not_inserted (shared_part align t r) t) l
  = shared_part align t l.
Proof.
  induction l as [|[k rv] l IH]; intros Hl; simpl; [done|].
  destruct (Hl k rv) as [Hr Hidem]; [left|].
  rewrite IH by (intros k' rv' Hin; apply Hl; by right).
  rewrite dict_get_app, dict_get_shared_part, Hr.
  destruct (dict_get k t) as [tv|] eqn:Ht.
  - by rewrite Hidem.
  - assert (dict_get k (not_inserted (shared_part align t r) t) = None) as ->;
      [|done].
    apply dict_get_None. rewrite dict_keys_not_inserted.
    intros [_ Hin]%list_elem_of_filter. by apply dict_get_None in Ht.
Qed.

Lemma align_idemp r : ∀ t,
  wf r = true → wf t = true → align r (align r t) = align r t.
Proof.
  induction r as [| | | | | |r IH] using json_nested_ind; intros t Hr Ht; try done.
  destruct t as [| | | | | |t]; try done.
  simpl. rewrite (shared_part_realign r t r).
  - rewrite not_inserted_app, not_inserted_self, not_inserted_idemp. done.
  - intros k rv Hin. split.
    + apply dict_get_NoDup; [by apply wf_dict_NoDup | done].
    + intros tv Htv%dict_get_Some_elem.
      rewrite Forall_forall in IH. apply (IH (k, rv) Hin).
      * by apply (wf_dict_value r k).
      * by apply (wf_dict_value t k).
Qed.

(** ** [align_json] returns, and the same value however many calls remain *)

Lemma for_each_returns {S K} (keys : list K) (body : S → K → result S) :
  (∀ s key, key ∈ keys → ∃ s', body s key = Ok s') →
  ∀ s, ∃ s', for_each keys body s = Ok s'.
Proof.
  induction keys as [|key keys IH]; intros Hbody s; simpl; [eauto|].
  destruct (Hbody s key) as [s1 ->]; [left|]. run_result.
  apply IH. intros s2 key' Hin. apply Hbody. by right.
Qed.

Lemma for_each_mono {S K} (keys : list K) (body body' : S → K → result S) :
  (∀ s key s', body s key = Ok s' → body' s key = Ok s') →
  ∀ s s', for_each keys body s = Ok s' → for_each keys body' s = Ok s'.
Proof.
  intros Hbody. induction keys as [|key keys IH]; intros s s'; simpl; [done|].
  destruct (body s key) as [s1|e] eqn:Hs1; run_result; [|done].
  rewrite (Hbody _ _ _ Hs1). run_result. apply IH.
Qed.

Lemma dict_getitem_key {V} (d : list (string * V)) k :
  k ∈ dict_keys d → ∃ v, dict_get k d = Some v ∧ (k, v) ∈ d.
Proof.
  intros [v Hv]%dict_get_is_Some. exists v. eauto using dict_get_Some_elem.
Qed.

Lemma align_json_returns fuel : ∀ template target,
  depth template < fuel → ∃ v, align_json fuel template target = Ok v.
Proof.
  induction fuel as [|fuel IH]; intros template target Hd; [lia|].
  destruct template as [| | | | | |tpl]; try (simpl; by eauto).
  destruct target as [| | | | | |tgt]; try (simpl; by eauto).
  cbn [align_json].
  match goal with
  | |- ∃ v, mbind _ (for_each ?keys ?body ?init) = _ =>
      assert (∀ s key, key ∈ keys → ∃ s', body s key = Ok s') as Hbody;
        [|destruct (for_each_returns keys body Hbody init) as [shared ->];
          clear Hbody]
  end.
  { intros new_obj key (a & Ha & Hin)%dict_getitem_key.
    unfold dict_contains, dict_getitem. rewrite Ha.
    destruct (dict_get key tgt) as [b|]; run_result; [|eauto].
    destruct (IH a b) as [r ->]; [|run_result; eauto].
    pose proof (depth_dict_value tpl key a Hin). lia. }
  run_result.
  match goal with
  | |- ∃ v, match for_each ?keys ?body ?init with _ => _ end = _ =>
      assert (∀ s key, key ∈ keys → ∃ s', body s key = Ok s') as Hbody;
        [|destruct (for_each_returns keys body Hbody init) as [new_obj ->];
          eauto]
  end.
  intros new_obj key (b & Hb & _)%dict_getitem_key.
  rewrite Hb.
  destruct (dict_contains key new_obj); run_result; eauto.
Qed.

Lemma align_json_mono fuel : ∀ fuel' template target v,
  fuel ≤ fuel' →
  align_json fuel template target = Ok v →
  align_json fuel' template target = Ok v.
Proof.
  induction fuel as [|fuel IH]; intros fuel' template target v Hle; [done|].
  destruct fuel' as [|fuel']; [lia|].
  destruct template as [| | | | | |tpl]; try done.
  destruct target as [| | | | | |tgt]; try done.
  cbn [align_json]. intros Hv.
  match type of Hv with
  | mbind _ (for_each ?keys ?body ?init) = _ =>
      destruct (for_each keys body init) as [shared|e] eqn:Hshared
  end; [|done].
  apply (for_each_mono _ _ (λ new_obj key,
      if dict_contains key tgt then
        a ← dict_getitem key tpl;
        b ← dict_getitem key tgt;
        r ← align_json fuel' a b;
        mret (dict_setitem key r new_obj)
      else mret new_obj)) in Hshared.
  - by rewrite Hshared.
  - intros new_obj key new_obj'. destruct (dict_contains key tgt); [|done].
    run_result.
    destruct (dict_get key tpl) as [a|]; [|done].
    destruct (dict_get key tgt) as [b|]; [|done].
    destruct (align_json fuel a b) as [r|e] eqn:Hr; [|done].
    by rewrite (IH fuel' a b r) by (lia || done).
Qed.

(** ** Paths of a mapping *)

Lemma elem_of_get_paths_dict items p s :
  s ∈ get_paths (JDict items) p ↔
  ∃ k v, (k, v) ∈ items ∧
    (s = new_path p k ∨ s ∈ get_paths v (new_path p k)).
Proof.
  cbn [get_paths].
  assert (∀ acc : gset string,
    s ∈ fold_left (λ paths kv,
          (paths ∪ {[ new_path p kv.1 ]}) ∪ get_paths kv.2 (new_path p kv.1))
        items acc ↔
    s ∈ acc ∨ ∃ k v, (k, v) ∈ items ∧
      (s = new_path p k ∨ s ∈ get_paths v (new_path p k))) as Hfold.
  { induction items as [|[k v] items IH]; intros acc; simpl.
    - split; [auto | intros [?|(? & ? & ?%elem_of_nil & _)]; done].
    - rewrite IH, !elem_of_union, elem_of_singleton. split.
      + intros [[[?|?]|?]|(k' & v' & ? & ?)]; [by left|..].
        * right. exists k, v. split; [left | by left].
        * right. exists k, v. split; [left | by right].
        * right. exists k', v'. split; [by right | done].
      + intros [?|(k' & v' & [[= -> ->]|?]%elem_of_cons & Hs)]; [auto| |].
        * destruct Hs; auto.
        * right. by exists k', v'. }
  rewrite Hfold. split; [intros [?%not_elem_of_empty|?]; done | auto].
Qed.

Lemma elem_of_key_paths_dict items ks :
  ks ∈ key_paths (JDict items) ↔
  ∃ k v, (k, v) ∈ items ∧
    (ks = [k] ∨ ∃ ks', ks' ∈ key_paths v ∧ ks = k :: ks').
Proof.
  cbn [key_paths]. rewrite list_elem_of_bind. split.
  - intros ([k v] & Hks & Hin). exists k, v. split; [done|]. simpl in Hks.
    apply elem_of_cons in Hks as [->|Hks]; [by left|]. right.
    apply list_elem_of_fmap in Hks as (ks' & -> & Hks'). by exists ks'.
  - intros (k & v & Hin & Hks). exists (k, v). split; [|done]. simpl.
    destruct Hks as [->|(ks' & Hks' & ->)]; [left|right].
    by apply list_elem_of_fmap_2.
Qed.

Lemma key_paths_nonempty data : [] ∉ key_paths data.
Proof.
  destruct data as [| | | | | |items]; try apply not_elem_of_nil.
  rewrite elem_of_key_paths_dict. by intros (k & v & _ & [?|(? & _ & ?)]).
Qed.

Lemma elem_of_dict_keys (d : list (string * json)) k :
  k ∈ dict_keys d ↔ ∃ v, (k, v) ∈ d.
Proof.
  unfold dict_keys. rewrite list_elem_of_fmap. split.
  - intros ([k' v] & -> & Hin). by exists v.
  - intros [v Hin]. by exists (k, v).
Qed.

(** The aligned document has the target's paths, under every prefix. *)
Lemma get_paths_align r : ∀ t p,
  wf r = true → wf t = true → get_paths (align r t) p = get_paths t p.
Proof.
  induction r as [| | | | | |r IH] using json_nested_ind;
    intros t p Hr Ht; try done.
  destruct t as [| | | | | |t]; try done.
  rewrite Forall_forall in IH.
  assert (∀ k rv tv q, (k, rv) ∈ r → (k, tv) ∈ t →
            get_paths (align rv tv) q = get_paths tv q) as Hsub.
  { intros k rv tv q Hrv Htv. apply (IH (k, rv) Hrv).
    - by apply (wf_dict_value r k).
    - by apply (wf_dict_value t k). }
  pose proof (wf_dict_NoDup _ Ht) as Hnd.
  cbn [align]. apply set_eq. intros s.
  rewrite !elem_of_get_paths_dict. split.
  - intros (k & v' & Hin & Hs). apply elem_of_align_items in Hin; [|done].
    destruct Hin as (tv & Htv & [(rv & Hrv & ->)|[_ ->]]).
    + exists k, tv. by rewrite (Hsub k rv tv) in Hs.
    + by exists k, tv.
  - intros (k & tv & Htv & Hs).
    destruct (decide (k ∈ dict_keys r)) as [[rv Hrv]%elem_of_dict_keys|Hk].
    + exists k, (align rv tv). rewrite (Hsub k rv tv) by done.
      split; [|done]. apply elem_of_align_items; [done|]. exists tv. eauto.
    + exists k, tv. split; [|done].
      apply elem_of_align_items; [done|]. exists tv. eauto.
Qed.

(** The same on key sequences, which tell apart keys that hold a dot. *)
Lemma key_paths_align r : ∀ t ks,
  wf r = true → wf t = true → ks ∈ key_paths (align r t) ↔ ks ∈ key_paths t.
Proof.
  induction r as [| | | | | |r IH] using json_nested_ind;
    intros t ks Hr Ht; try done.
  destruct t as [| | | | | |t]; try done.
  rewrite Forall_forall in IH.
  assert (∀ k rv tv ks', (k, rv) ∈ r → (k, tv) ∈ t →
            ks' ∈ key_paths (align rv tv) ↔ ks' ∈ key_paths tv) as Hsub.
  { intros k rv tv ks' Hrv Htv. apply (IH (k, rv) Hrv).
    - by apply (wf_dict_value r k).
    - by apply (wf_dict_value t k). }
  pose proof (wf_dict_NoDup _ Ht) as Hnd.
  cbn [align]. rewrite !elem_of_key_paths_dict. split.
  - intros (k & v' & Hin & Hs). apply elem_of_align_items in Hin; [|done].
    destruct Hin as (tv & Htv & [(rv & Hrv & ->)|[_ ->]]).
    + exists k, tv. split; [done|].
      destruct Hs as [?|(ks' & Hks' & ?)]; [by left|right].
      exists ks'. by rewrite <-(Hsub k rv tv).
    + by exists k, tv.
  - intros (k & tv & Htv & Hs).
    destruct (decide (k ∈ dict_keys r)) as [[rv Hrv]%elem_of_dict_keys|Hk].
    + exists k, (align rv tv). split.
      * apply elem_of_align_items; [done|]. exists tv. eauto.
      * destruct Hs as [?|(ks' & Hks' & ?)]; [by left|right].
        exists ks'. by rewrite (Hsub k rv tv).
    + exists k, tv. split; [|done].
      apply elem_of_align_items; [done|]. exists tv. eauto.
Qed.

(** ** [sorted] and the two reported lists *)

Lemma sorted_Permutation l : sorted l ≡ₚ l.
Proof. apply merge_sort_Permutation. Qed.

Lemma sorted_StronglySorted l : StronglySorted String.le (sorted l).
Proof. apply (StronglySorted_merge_sort String.le). Qed.

Lemma sorted_enumeration l1 l2 : l1 ≡ₚ l2 → sorted l1 = sorted l2.
Proof.
  intros Hperm. apply (StronglySorted_unique String.le);
    [apply sorted_StronglySorted..|].
  by rewrite !sorted_Permutation.
Qed.

Lemma elem_of_sorted_difference (X Y : gset string) p :
  p ∈ sorted (elements (X ∖ Y)) ↔ p ∈ X ∧ p ∉ Y.
Proof.
  by rewrite sorted_Permutation, elem_of_elements, elem_of_difference.
Qed.

Lemma NoDup_sorted_difference (X Y : gset string) :
  NoDup (sorted (elements (X ∖ Y))).
Proof. rewrite sorted_Permutation. apply NoDup_elements. Qed.

(** [String.le] compares the first bytes, then the rest. *)
Lemma string_le_nil s : String.le "" s.
Proof. by destruct s. Qed.

Lemma string_le_cons a s b t :
  String.le (String a s) (String b t) ↔
  (Ascii.N_of_ascii a < Ascii.N_of_ascii b)%N ∨ (a = b ∧ String.le s t).
Proof.
  unfold String.le, String.leb. simpl. unfold Ascii.compare.
  destruct (N.compare_spec (Ascii.N_of_ascii a) (Ascii.N_of_ascii b))
    as [Heq|Hlt|Hgt].
  - apply (f_equal Ascii.ascii_of_N) in Heq.
    rewrite !Ascii.ascii_N_embedding in Heq. subst b. split; [auto|].
    intros [?|[_ ?]]; [lia|done].
  - split; [auto|done].
  - split; [done|]. intros [?|[-> _]]; lia.
Qed.

(** ** [get_paths] against the dotted key paths *)

Lemma string_app_assoc (s1 s2 s3 : string) :
  s1 +:+ (s2 +:+ s3) = (s1 +:+ s2) +:+ s3.
Proof.
  induction s1 as [|a s1 IH]; [done|].
  change (String a (s1 +:+ (s2 +:+ s3)) = String a ((s1 +:+ s2) +:+ s3)).
  by rewrite IH.
Qed.

Lemma new_path_prefixed p k : p ≠ "" → new_path p k = p +:+ "." +:+ k.
Proof. by destruct p. Qed.

Lemma dotted_cons k ks : ks ≠ [] → dotted (k :: ks) = k +:+ "." +:+ dotted ks.
Proof. by destruct ks. Qed.

(** Below a non-empty prefix, [get_paths] yields the prefix, a dot and the
    dotted key path, for every key sequence of the subtree. *)
Lemma get_paths_prefixed data : ∀ p, p ≠ "" →
  get_paths data p
  = list_to_set ((λ ks, p +:+ "." +:+ dotted ks) <$> key_paths data).
Proof.
  induction data as [| | | | | |items IH] using json_nested_ind;
    intros p Hp; try done.
  rewrite Forall_forall in IH. apply set_eq. intros s.
  rewrite elem_of_get_paths_dict, elem_of_list_to_set, list_elem_of_fmap.
  setoid_rewrite elem_of_key_paths_dict.
  split.
  - intros (k & v & Hin & Hs).
    rewrite (new_path_prefixed p k) in Hs by done. destruct Hs as [->|Hs].
    + exists [k]. split; [done|]. exists k, v. auto.
    + rewrite (IH (k, v) Hin) in Hs by (by destruct p).
      apply elem_of_list_to_set, list_elem_of_fmap in Hs as (ks' & -> & Hks').
      exists (k :: ks'). split; [|exists k, v; eauto].
      rewrite dotted_cons; [by rewrite !string_app_assoc|].
      intros ->. by apply key_paths_nonempty in Hks'.
  - intros (ks & -> & k & v & Hin & Hks). exists k, v. split; [done|].
    rewrite (new_path_prefixed p k) by done.
    destruct Hks as [->|(ks' & Hks' & ->)]; [by left|right].
    rewrite (IH (k, v) Hin) by (by destruct p).
    apply elem_of_list_to_set, list_elem_of_fmap. exists ks'. split; [|done].
    rewrite dotted_cons; [by rewrite !string_app_assoc|].
    intros ->. by apply key_paths_nonempty in Hks'.
Qed.

(** Called with the empty prefix on a document whose root keys are all
    non-empty, [get_paths] returns exactly the dotted key paths. *)
Lemma get_paths_dotted document :
  "" ∉ root_keys document →
  get_paths document "" = collectPaths_spec document.
Proof.
  destruct document as [| | | | | |items]; try done.
  intros Hroot. unfold collectPaths_spec. apply set_eq. intros s.
  rewrite elem_of_get_paths_dict, elem_of_list_to_set, list_elem_of_fmap.
  setoid_rewrite elem_of_key_paths_dict.
  assert (∀ k v, (k, v) ∈ items → k ≠ "") as Hk.
  { intros k v Hin ->. apply Hroot, elem_of_dict_keys. eauto. }
  split.
  - intros (k & v & Hin & [->|Hs]).
    + exists [k]. split; [done|]. exists k, v. auto.
    + simpl in Hs. rewrite get_paths_prefixed in Hs by eauto.
      apply elem_of_list_to_set, list_elem_of_fmap in Hs as (ks' & -> & Hks').
      exists (k :: ks'). split; [|exists k, v; eauto].
      rewrite dotted_cons; [done|].
      intros ->. by apply key_paths_nonempty in Hks'.
  - intros (ks & -> & k & v & Hin & [->|(ks' & Hks' & ->)]).
    + exists k, v. auto.
    + exists k, v. split; [done|]. right. simpl.
      rewrite get_paths_prefixed by eauto.
      apply elem_of_list_to_set, list_elem_of_fmap. exists ks'. split; [|done].
      rewrite dotted_cons; [done|].
      intros ->. by apply key_paths_nonempty in Hks'.
Qed.

(** * The claims *)

(** C1. For two mapping nodes, [align_json] returns a new mapping made of
    two runs.  First come the reference's keys that the target also has,
    in the reference's order, each holding what the recursive call returns
    for the two subtrees under that key; then come the target's keys that
    the reference lacks, in the target's order, each holding the target's
    value unchanged.  Reference-only keys are absent. *)
Theorem align_json_mapping fuel r t :
  wf (JDict r) = true → wf (JDict t) = true → depth (JDict r) ≤ fuel →
  align_json (S fuel) (JDict r) (JDict t)
    = Ok (JDict (shared_part align t r ++ filter (λ kv, kv.1 ∉ dict_keys r) t))
  ∧ (∀ k rv tv, (k, rv) ∈ r → dict_get k t = Some tv →
       align_json fuel rv tv = Ok (align rv tv))
  ∧ dict_keys (shared_part align t r ++ filter (λ kv, kv.1 ∉ dict_keys r) t)
    = filter (λ k, k ∈ dict_keys t) (dict_keys r)
      ++ filter (λ k, k ∉ dict_keys r) (dict_keys t).
Proof.
  intros Hr Ht Hd. split_and!.
  - rewrite align_json_refines by (done || lia).
    cbn [align]. by rewrite not_inserted_target_only.
  - intros k rv tv Hrv Htv. apply align_json_refines.
    + by apply (wf_dict_value r k).
    + apply (wf_dict_value t k); [done|]. by apply dict_get_Some_elem.
    + pose proof (depth_dict_value r k rv Hrv). lia.
  - rewrite <-(not_inserted_target_only align), dict_keys_app.
    rewrite dict_keys_shared_part, dict_keys_not_inserted. f_equal.
    apply filter_ext_elem. intros k Hk.
    rewrite dict_keys_shared_part, list_elem_of_filter. tauto.
Qed.

(** Sample scenario 1 of the specification, through the theorem. *)
Lemma align_json_mapping_scenario1 :
  align_json 3 scenario1_reference scenario1_target
  = Ok (JDict [("a", JDict [("c", JInt 99); ("d", JInt 4)])]).
Proof.
  destruct (align_json_mapping 2
              [("a", JDict [("b", JInt 1); ("c", JInt 2)])]
              [("a", JDict [("c", JInt 99); ("d", JInt 4)])])
    as [Hout _]; [reflexivity | reflexivity | simpl; lia |].
  exact Hout.
Defined.

(** C2.  On a document whose root key is the empty string, [get_paths]
    leaves out the separator below that key: the key sequence
    [""; "x"] has the dotted path [".x"], and the routine reports ["x"]. *)
Theorem get_paths_empty_root_key :
  [""; "x"] ∈ key_paths empty_key_document
  ∧ dotted [""; "x"] = ".x"
  ∧ get_paths empty_key_document "" = {[ ""; "x" ]}
  ∧ ".x" ∈ collectPaths_spec empty_key_document
  ∧ ".x" ∉ get_paths empty_key_document "".
Proof.
  assert (get_paths empty_key_document "" = {[ ""; "x" ]}) as Hcode.
  { by vm_compute. }
  split_and!.
  - unfold empty_key_document. rewrite elem_of_key_paths_dict.
    exists "", (JDict [("x", JInt 1)]). split; [left | right].
    exists ["x"]. split; [|done]. rewrite elem_of_key_paths_dict.
    exists "x", (JInt 1). split; [left | by left].
  - done.
  - done.
  - unfold collectPaths_spec. rewrite elem_of_list_to_set. simpl.
    right. left.
  - rewrite Hcode, elem_of_union, !elem_of_singleton. by intros [?|?].
Qed.

(** C3. For all path sets, [missing_in_fr] lists exactly the reference
    paths that the target lacks and [extra_in_fr] exactly the target
    paths that the reference lacks; both lists are in ascending [String.le]
    order without repetition, and they do not depend on the order in which
    the set difference is enumerated.  On sample scenario 3 they are
    ["b.c"] and ["b.d"], and ["b"] is in neither. *)
Theorem diff_contract :
  (∀ en_keys fr_keys : gset string,
     (∀ p, p ∈ missing_in_fr en_keys fr_keys ↔ p ∈ en_keys ∧ p ∉ fr_keys)
     ∧ (∀ p, p ∈ extra_in_fr en_keys fr_keys ↔ p ∈ fr_keys ∧ p ∉ en_keys)
     ∧ StronglySorted String.le (missing_in_fr en_keys fr_keys)
     ∧ StronglySorted String.le (extra_in_fr en_keys fr_keys)
     ∧ NoDup (missing_in_fr en_keys fr_keys)
     ∧ NoDup (extra_in_fr en_keys fr_keys)
     ∧ (∀ l, l ≡ₚ elements (en_keys ∖ fr_keys) →
          sorted l = missing_in_fr en_keys fr_keys)
     ∧ (∀ l, l ≡ₚ elements (fr_keys ∖ en_keys) →
          sorted l = extra_in_fr en_keys fr_keys))
  ∧ missing_in_fr (get_paths scenario3_reference "")
      (get_paths scenario3_target "") = ["b.c"]
  ∧ extra_in_fr (get_paths scenario3_reference "")
      (get_paths scenario3_target "") = ["b.d"].
Proof.
  split; [|by vm_compute].
  intros en_keys fr_keys. unfold missing_in_fr, extra_in_fr. split_and!.
  - apply elem_of_sorted_difference.
  - apply elem_of_sorted_difference.
  - apply sorted_StronglySorted.
  - apply sorted_StronglySorted.
  - apply NoDup_sorted_difference.
  - apply NoDup_sorted_difference.
  - intros l. apply sorted_enumeration.
  - intros l. apply sorted_enumeration.
Qed.

Lemma diff_contract_scenario3 :
  "b.c" ∈ missing_in_fr (get_paths scenario3_reference "")
            (get_paths scenario3_target "")
  ∧ sorted (reverse (elements (get_paths scenario3_reference ""
                                 ∖ get_paths scenario3_target "")))
    = missing_in_fr (get_paths scenario3_reference "")
        (get_paths scenario3_target "").
Proof.
  destruct diff_contract as [Hall _].
  destruct (Hall (get_paths scenario3_reference "")
              (get_paths scenario3_target ""))
    as (Hmissing & _ & _ & _ & _ & _ & Henum & _).
  split.
  - apply Hmissing. split; [by vm_compute | by vm_compute].
  - apply Henum, reverse_Permutation.
Defined.

(** C4. The keys of the aligned document are those of the target: a key
    sequence leads to a key of the output exactly when it leads to a key
    of the target, so no key of the target is lost and no key that only
    the reference has appears; the dotted paths collected from the output
    are those collected from the target. *)
Theorem align_json_keeps_target_keys fuel reference target :
  wf reference = true → wf target = true → depth reference < fuel →
  ∃ out, align_json fuel reference target = Ok out
    ∧ (∀ ks, ks ∈ key_paths out ↔ ks ∈ key_paths target)
    ∧ (∀ ks, ks ∈ key_paths reference → ks ∉ key_paths target →
         ks ∉ key_paths out)
    ∧ (∀ p, get_paths out p = get_paths target p).
Proof.
  intros Hr Ht Hd. exists (align reference target). split_and!.
  - by apply align_json_refines.
  - intros ks. by apply key_paths_align.
  - intros ks _ Hks. by rewrite key_paths_align.
  - intros p. by apply get_paths_align.
Qed.

Lemma align_json_keeps_target_keys_scenario1 :
  ∃ out, align_json 3 scenario1_reference scenario1_target = Ok out
    ∧ get_paths out "" = get_paths scenario1_target "".
Proof.
  destruct (align_json_keeps_target_keys 3 scenario1_reference scenario1_target)
    as (out & Hout & _ & _ & Hpaths);
    [reflexivity | reflexivity | simpl; lia |].
  exists out. split; [exact Hout | exact (Hpaths "")].
Defined.

(** C5. When the reference or the target is not a mapping, [align_json]
    returns the target as it is; this covers scalars and lists on either
    side and a mapping facing a non-mapping. *)
Theorem align_json_non_mapping fuel reference target :
  is_dict reference = false ∨ is_dict target = false →
  align_json (S fuel) reference target = Ok target.
Proof.
  intros [Hr|Ht].
  - by destruct reference.
  - by destruct reference, target.
Qed.

Lemma align_json_non_mapping_lists :
  align_json 1 (JList [JInt 1; JInt 2]) (JList [JInt 3]) = Ok (JList [JInt 3]).
Proof.
  apply (align_json_non_mapping 0 (JList [JInt 1; JInt 2]) (JList [JInt 3])).
  left. reflexivity.
Defined.

(** Sample scenario 2 of the specification: under the shared key ["x"] a
    scalar faces a mapping, and the target's mapping is kept whole. *)
Example align_json_scenario2 :
  align_json 2 scenario2_reference scenario2_target
  = Ok (JDict [("x", JDict [("y", JInt 2)])]).
Proof. reflexivity. Qed.

(** C6. Aligning a document with itself returns the document, with its
    keys in the same order. *)
Theorem align_json_self fuel document :
  wf document = true → depth document < fuel →
  align_json fuel document document = Ok document.
Proof.
  intros Hwf Hd. rewrite align_json_refines by done. by rewrite align_self.
Qed.

Lemma align_json_self_scenario3 :
  align_json 3 scenario3_reference scenario3_reference = Ok scenario3_reference.
Proof.
  apply (align_json_self 3 scenario3_reference); [reflexivity | simpl; lia].
Defined.

(** C7. For any two documents the reported lists have no path in common,
    and together with the paths common to both documents they make up all
    the paths of the two documents. *)
Theorem diff_partition reference target :
  let en_keys := get_paths reference "" in
  let fr_keys := get_paths target "" in
  let missing : gset string := list_to_set (missing_in_fr en_keys fr_keys) in
  let extra : gset string := list_to_set (extra_in_fr en_keys fr_keys) in
  (∀ p, p ∈ missing_in_fr en_keys fr_keys → p ∉ extra_in_fr en_keys fr_keys)
  ∧ missing ## extra
  ∧ missing ∪ extra ∪ (en_keys ∩ fr_keys) = en_keys ∪ fr_keys.
Proof.
  intros en_keys fr_keys missing extra.
  assert (missing = en_keys ∖ fr_keys) as ->.
  { apply set_eq. intros p. unfold missing, missing_in_fr.
    by rewrite elem_of_list_to_set, elem_of_sorted_difference,
      elem_of_difference. }
  assert (extra = fr_keys ∖ en_keys) as ->.
  { apply set_eq. intros p. unfold extra, extra_in_fr.
    by rewrite elem_of_list_to_set, elem_of_sorted_difference,
      elem_of_difference. }
  split_and!.
  - intros p. unfold missing_in_fr, extra_in_fr.
    rewrite !elem_of_sorted_difference. tauto.
  - apply elem_of_disjoint. intros p.
    rewrite !elem_of_difference. tauto.
  - apply set_eq. intros p.
    rewrite !elem_of_union, elem_of_intersection, !elem_of_difference.
    destruct (decide (p ∈ en_keys)), (decide (p ∈ fr_keys)); tauto.
Qed.

(** C8. The paths that the reference and the target have in common are
    the paths of the aligned document that also occur in the reference,
    as dotted paths and as key sequences. *)
Theorem common_paths_in_aligned fuel reference target :
  wf reference = true → wf target = true → depth reference < fuel →
  ∃ out, align_json fuel reference target = Ok out
    ∧ get_paths reference "" ∩ get_paths target ""
      = get_paths out "" ∩ get_paths reference ""
    ∧ (∀ ks, ks ∈ key_paths reference ∧ ks ∈ key_paths target ↔
             ks ∈ key_paths out ∧ ks ∈ key_paths reference).
Proof.
  intros Hr Ht Hd. exists (align reference target). split_and!.
  - by apply align_json_refines.
  - rewrite get_paths_align by done. apply (comm_L (∩)).
  - intros ks. rewrite key_paths_align by done. tauto.
Qed.

Lemma common_paths_in_aligned_scenario3 :
  ∃ out, align_json 3 scenario3_reference scenario3_target = Ok out
    ∧ get_paths scenario3_reference "" ∩ get_paths scenario3_target ""
      = get_paths out "" ∩ get_paths scenario3_reference "".
Proof.
  destruct (common_paths_in_aligned 3 scenario3_reference scenario3_target)
    as (out & Hout & Hpaths & _); [reflexivity | reflexivity | simpl; lia |].
  exists out. split; [exact Hout | exact Hpaths].
Defined.

(** C9. [align_json] returns a value for every reference and target: it
    raises no [KeyError], and with more calls allowed than the reference
    has nested mappings it raises no [RecursionError]; the value does not
    depend on how many more calls are allowed. *)
Theorem align_json_total reference target :
  ∃ v, ∀ fuel, depth reference < fuel →
    align_json fuel reference target = Ok v.
Proof.
  destruct (align_json_returns (S (depth reference)) reference target)
    as [v Hv]; [lia|].
  exists v. intros fuel Hd.
  by apply (align_json_mono (S (depth reference))); [lia|].
Qed.

Lemma align_json_total_scenario2 :
  ∃ v, align_json 2 scenario2_reference scenario2_target = Ok v.
Proof.
  destruct (align_json_total scenario2_reference scenario2_target) as [v Hv].
  exists v. apply Hv. simpl. lia.
Defined.

(** C10. Aligning the aligned document against the same reference returns
    it unchanged, key order included. *)
Theorem align_json_idempotent fuel reference target :
  wf reference = true → wf target = true → depth reference < fuel →
  ∃ out, align_json fuel reference target = Ok out
    ∧ align_json fuel reference out = Ok out.
Proof.
  intros Hr Ht Hd. exists (align reference target). split.
  - by apply align_json_refines.
  - rewrite align_json_refines by auto using wf_align.
    by rewrite align_idemp.
Qed.

Lemma align_json_idempotent_scenario1 :
  ∃ out, align_json 3 scenario1_reference scenario1_target = Ok out
    ∧ align_json 3 scenario1_reference out = Ok out.
Proof.
  apply (align_json_idempotent 3 scenario1_reference scenario1_target);
    [reflexivity | reflexivity | simpl; lia].
Defined.


(** * Further properties of the two scripts *)

(** ** The aligner reads only the keys of the reference *)

Lemma for_each_ext {S K} (keys : list K) (body body' : S → K → result S) :
  (∀ s key, key ∈ keys → body s key = body' s key) →
  ∀ s, for_each keys body s = for_each keys body' s.
Proof.
  induction keys as [|key keys IH]; intros Hbody s; simpl; [done|].
  rewrite <-(Hbody s key) by left.
  destruct (body s key) as [s1|e]; run_result; [|done].
  apply IH. intros s2 key' Hin. apply Hbody. by right.
Qed.

Lemma dict_keys_skeleton items :
  dict_keys ((λ kv : string * json, (kv.1, skeleton kv.2)) <$> items)
  = dict_keys items.
Proof.
  unfold dict_keys. rewrite <-list_fmap_compose. by apply list_fmap_ext.
Qed.

Lemma dict_get_skeleton items k :
  dict_get k ((λ kv : string * json, (kv.1, skeleton kv.2)) <$> items)
  = skeleton <$> dict_get k items.
Proof.
  induction items as [|[k' v] items IH]; [done|].
  rewrite fmap_cons. simpl. by case_decide.
Qed.

(** X1. [align_json] never reads a value of the template that is not a
    mapping: with the template reduced to its keys, the call returns or
    raises the same. *)
Theorem align_json_skeleton fuel : ∀ template target,
  align_json fuel (skeleton template) target = align_json fuel template target.
Proof.
  induction fuel as [|fuel IH]; intros template target; [done|].
  destruct template as [| | | | | |tpl]; try done.
  destruct target as [| | | | | |tgt]; try done.
  cbn [skeleton align_json]. rewrite dict_keys_skeleton.
  f_equal. apply for_each_ext. intros new_obj key _.
  destruct (dict_contains key tgt); [|done].
  unfold dict_getitem. rewrite dict_get_skeleton.
  destruct (dict_get key tpl) as [a|]; [|done].
  destruct (dict_get key tgt) as [b|]; [|done].
  run_result. by rewrite IH.
Qed.

(** ** What [align_json] can raise *)

Lemma for_each_raises {S K} (keys : list K) (body : S → K → result S) e :
  ∀ s, for_each keys body s = Raise e →
  ∃ s' key, key ∈ keys ∧ body s' key = Raise e.
Proof.
  induction keys as [|key keys IH]; intros s; simpl; [done|].
  destruct (body s key) as [s1|e1] eqn:Hs1; run_result.
  - intros (s' & key' & Hin & Hraise)%IH. exists s', key'.
    split; [by right | done].
  - intros [= ->]. exists s, key. split; [left | done].
Qed.

Lemma align_json_raises_RecursionError fuel : ∀ template target e,
  align_json fuel template target = Raise e → e = RecursionError.
Proof.
  induction fuel as [|fuel IH]; intros template target e; [by intros [= <-]|].
  destruct template as [| | | | | |tpl]; try done.
  destruct target as [| | | | | |tgt]; try done.
  cbn [align_json]. intros Hraise.
  match type of Hraise with
  | mbind _ (for_each ?keys ?body ?init) = _ =>
      destruct (for_each keys body init) as [shared|e1] eqn:Hshared
  end.
  - revert Hraise. run_result.
    match goal with
    | |- match for_each ?keys ?body ?init with _ => _ end = _ → _ =>
        destruct (for_each keys body init) as [new_obj|e2] eqn:Hrest
    end; [done|].
    intros [= ->].
    apply for_each_raises in Hrest as (new_obj & key & Hin & Hbody).
    apply dict_getitem_key in Hin as (b & Hb & _). rewrite Hb in Hbody.
    by destruct (dict_contains key new_obj).
  - revert Hraise. run_result. intros [= ->].
    apply for_each_raises in Hshared as (new_obj & key & Hin & Hbody).
    apply dict_getitem_key in Hin as (a & Ha & _).
    unfold dict_contains, dict_getitem in Hbody. rewrite Ha in Hbody.
    destruct (dict_get key tgt) as [b|]; [|done].
    revert Hbody. run_result.
    destruct (align_json fuel a b) as [r|e2] eqn:Hr; [done|].
    intros [= ->]. by apply (IH a b).
Qed.

Lemma align_json_returns_target fuel : ∀ template target,
  depth target < fuel → ∃ v, align_json fuel template target = Ok v.
Proof.
  induction fuel as [|fuel IH]; intros template target Hd; [lia|].
  destruct template as [| | | | | |tpl]; try (simpl; by eauto).
  destruct target as [| | | | | |tgt]; try (simpl; by eauto).
  cbn [align_json].
  match goal with
  | |- ∃ v, mbind _ (for_each ?keys ?body ?init) = _ =>
      assert (∀ s key, key ∈ keys → ∃ s', body s key = Ok s') as Hbody;
        [|destruct (for_each_returns keys body Hbody init) as [shared ->];
          clear Hbody]
  end.
  { intros new_obj key (a & Ha & _)%dict_getitem_key.
    unfold dict_contains, dict_getitem. rewrite Ha.
    destruct (dict_get key tgt) as [b|] eqn:Hb; run_result; [|eauto].
    destruct (IH a b) as [r ->]; [|run_result; eauto].
    pose proof (depth_dict_value tgt key b (dict_get_Some_elem _ _ _ Hb)).
    lia. }
  run_result.
  match goal with
  | |- ∃ v, match for_each ?keys ?body ?init with _ => _ end = _ =>
      assert (∀ s key, key ∈ keys → ∃ s', body s key = Ok s') as Hbody;
        [|destruct (for_each_returns keys body Hbody init) as [new_obj ->];
          eauto]
  end.
  intros new_obj key (b & Hb & _)%dict_getitem_key.
  rewrite Hb.
  destruct (dict_contains key new_obj); run_result; eauto.
Qed.

(** X2. The only exception [align_json] raises is [RecursionError], and only
    when the calls allowed do not exceed the nesting depth of either
    document. *)
Theorem align_json_raises fuel template target e :
  align_json fuel template target = Raise e →
  e = RecursionError ∧ fuel ≤ depth template ∧ fuel ≤ depth target.
Proof.
  intros Hraise. split_and!.
  - by apply (align_json_raises_RecursionError fuel template target).
  - destruct (decide (depth template < fuel)) as [Hd|Hd]; [|lia].
    destruct (align_json_returns fuel template target Hd) as [v Hv].
    congruence.
  - destruct (decide (depth target < fuel)) as [Hd|Hd]; [|lia].
    destruct (align_json_returns_target fuel template target Hd) as [v Hv].
    congruence.
Qed.

Lemma align_json_raises_scenario1 :
  RecursionError = RecursionError
  ∧ 1 ≤ depth scenario1_reference ∧ 1 ≤ depth scenario1_target.
Proof.
  apply (align_json_raises 1 scenario1_reference scenario1_target
           RecursionError).
  reflexivity.
Defined.

(** ** The values of the aligned document *)

Lemma dict_get_not_inserted inserted t k :
  dict_get k (not_inserted inserted t)
  = if decide (k ∈ dict_keys inserted) then None else dict_get k t.
Proof.
  unfold not_inserted. induction t as [|[k' v] t IH]; [by case_decide|].
  rewrite filter_cons.
  destruct (decide ((k', v).1 ∉ dict_keys inserted)) as [Hk'|Hk'];
    simpl in Hk'; cbn [dict_get].
  - destruct (decide (k = k')) as [->|Hne]; [|apply IH].
    by rewrite decide_False.
  - rewrite IH. destruct (decide (k = k')) as [->|Hne]; [|done].
    by rewrite !decide_True by (by apply dec_stable).
Qed.

(** Under a key, the aligned mapping holds the target's value for that key,
    aligned against the reference's value where the reference has the
    key. *)
Lemma dict_get_align_items r t k :
  dict_get k (shared_part align t r ++ not_inserted (shared_part align t r) t)
  = (λ tv, match dict_get k r with Some rv => align rv tv | None => tv end)
      <$> dict_get k t.
Proof.
  rewrite dict_get_app, dict_get_shared_part, dict_get_not_inserted.
  rewrite dict_keys_shared_part.
  destruct (dict_get k r) as [rv|] eqn:Hr, (dict_get k t) as [tv|] eqn:Ht;
    simpl; try done.
  - by case_decide.
  - rewrite decide_False; [done|].
    rewrite list_elem_of_filter. intros [_ Hin].
    by apply dict_get_None in Hr.
  - by case_decide.
Qed.

Lemma value_at_align ks : ∀ r t,
  value_at ks (align r t)
  = (λ tv, match value_at ks r with Some rv => align rv tv | None => tv end)
      <$> value_at ks t.
Proof.
  induction ks as [|k ks IH]; intros r t; [done|].
  destruct t as [| | | | | |t]; try (by destruct r).
  destruct r as [| | | | | |r];
    try (cbn [align value_at]; by destruct (dict_get k t ≫= value_at ks)).
  cbn [align value_at]. rewrite dict_get_align_items.
  destruct (dict_get k t) as [tv|]; [|done]. simpl.
  destruct (dict_get k r) as [rv|]; simpl; [apply IH|].
  by destruct (value_at ks tv).
Qed.

Lemma align_non_mapping r t v :
  is_dict v = false → align r t = v ↔ t = v.
Proof.
  intros Hv. destruct r, t; simpl; try done.
  split; intros <-; done.
Qed.

Lemma is_dict_align r t : is_dict (align r t) = is_dict t.
Proof. by destruct r, t. Qed.

(** X3. The aligner changes no value: read by any key sequence, a value that
    is not a mapping is found in the output exactly where the target has
    it, and a mapping is found exactly where the target has a mapping. *)
Theorem align_json_keeps_values fuel reference target :
  wf reference = true → wf target = true → depth reference < fuel →
  ∃ out, align_json fuel reference target = Ok out
    ∧ (∀ ks v, is_dict v = false →
         value_at ks out = Some v ↔ value_at ks target = Some v)
    ∧ (∀ ks, (∃ v, value_at ks out = Some v ∧ is_dict v = true) ↔
             (∃ v, value_at ks target = Some v ∧ is_dict v = true)).
Proof.
  intros Hr Ht Hd. exists (align reference target). split_and!.
  - by apply align_json_refines.
  - intros ks v Hv. rewrite value_at_align.
    destruct (value_at ks target) as [tv|]; simpl; [|done].
    destruct (value_at ks reference) as [rv|]; [|done].
    split; intros [= Heq]; f_equal; by apply (align_non_mapping rv tv v).
  - intros ks. rewrite value_at_align.
    destruct (value_at ks target) as [tv|]; simpl;
      [|split; by intros (? & ? & _)].
    destruct (value_at ks reference) as [rv|]; [|done].
    split.
    + intros (v & [= <-] & Hv). rewrite is_dict_align in Hv. eauto.
    + intros (v & [= <-] & Hv). exists (align rv tv).
      by rewrite is_dict_align.
Qed.

Lemma align_json_keeps_values_scenario1 :
  ∃ out, align_json 3 scenario1_reference scenario1_target = Ok out
    ∧ value_at ["a"; "c"] out = Some (JInt 99).
Proof.
  destruct (align_json_keeps_values 3 scenario1_reference scenario1_target)
    as (out & Hout & Hvalues & _);
    [reflexivity | reflexivity | simpl; lia |].
  exists out. split; [exact Hout|].
  apply (Hvalues ["a"; "c"] (JInt 99)); reflexivity.
Defined.

(** ** The key order of the aligned document *)

Lemma key_paths_singleton items k :
  [k] ∈ key_paths (JDict items) ↔ k ∈ dict_keys items.
Proof.
  rewrite elem_of_key_paths_dict, elem_of_dict_keys. split.
  - intros (k' & v & Hin & [[= ->]|(ks' & Hks' & [= -> <-])]); [eauto|].
    by apply key_paths_nonempty in Hks'.
  - intros [v Hin]. exists k, v. auto.
Qed.

Lemma key_paths_cons items k v ks :
  NoDup (dict_keys items) → (k, v) ∈ items → ks ≠ [] →
  k :: ks ∈ key_paths (JDict items) ↔ ks ∈ key_paths v.
Proof.
  intros Hnd Hin Hks. rewrite elem_of_key_paths_dict. split.
  - intros (k' & v' & Hin' & [[= -> ->]|(ks' & Hks' & [= -> ->])]); [done|].
    pose proof (dict_get_NoDup _ _ _ Hnd Hin) as Hv.
    pose proof (dict_get_NoDup _ _ _ Hnd Hin') as Hv'. congruence.
  - intros Hv. exists k, v. split; [done|]. right. by exists ks.
Qed.

Lemma key_paths_shared_part t l :
  (∀ k rv, (k, rv) ∈ l →
     ∃ tv, dict_get k t = Some tv ∧ key_paths (align rv tv) = key_paths rv) →
  key_paths (JDict (shared_part align t l)) = key_paths (JDict l).
Proof.
  induction l as [|[k rv] l IH]; intros Hl; [done|].
  destruct (Hl k rv) as (tv & Htv & Hpaths); [left|].
  cbn [shared_part]. rewrite Htv.
  cbn [key_paths] in *. rewrite !bind_cons. simpl. rewrite Hpaths.
  do 2 f_equal. apply IH. intros k' rv' Hin. apply Hl. by right.
Qed.

Lemma key_paths_align_same_keys r : ∀ t,
  wf r = true → wf t = true →
  (∀ ks, ks ∈ key_paths r ↔ ks ∈ key_paths t) →
  key_paths (align r t) = key_paths r.
Proof.
  induction r as [| | | | | |r IH] using json_nested_ind;
    intros t Hr Ht Hsame;
    try (destruct t; apply elem_of_nil_inv; intros ks Hks;
         by apply Hsame, elem_of_nil in Hks).
  destruct t as [| | | | | |t];
    try (symmetry; apply elem_of_nil_inv; intros ks Hks;
         by apply Hsame, elem_of_nil in Hks).
  pose proof (wf_dict_NoDup _ Hr) as Hndr.
  pose proof (wf_dict_NoDup _ Ht) as Hndt.
  rewrite Forall_forall in IH.
  cbn [align]. rewrite not_inserted_target_only.
  assert (filter (λ kv : string * json, kv.1 ∉ dict_keys r) t = []) as ->.
  { apply elem_of_nil_inv. intros [k v] [Hk Hin]%list_elem_of_filter.
    apply Hk, key_paths_singleton, Hsame, key_paths_singleton.
    apply elem_of_dict_keys. eauto. }
  rewrite app_nil_r. apply key_paths_shared_part. intros k rv Hrv.
  assert (k ∈ dict_keys t) as (tv & Htv & Hin)%dict_getitem_key.
  { apply key_paths_singleton, Hsame, key_paths_singleton.
    apply elem_of_dict_keys. eauto. }
  exists tv. split; [done|]. apply (IH (k, rv) Hrv).
  - by apply (wf_dict_value r k).
  - by apply (wf_dict_value t k).
  - intros ks. destruct (decide (ks = [])) as [->|Hks].
    { split; intros []%key_paths_nonempty. }
    by rewrite <-(key_paths_cons r k rv ks), <-(key_paths_cons t k tv ks),
      Hsame.
Qed.

(** X4. When the target has exactly the keys of the reference, at every
    level, the aligned document lists them in the reference's order:
    its key sequences, taken in document order, are the reference's. *)
Theorem align_json_reference_order fuel reference target :
  wf reference = true → wf target = true → depth reference < fuel →
  (∀ ks, ks ∈ key_paths reference ↔ ks ∈ key_paths target) →
  ∃ out, align_json fuel reference target = Ok out
    ∧ key_paths out = key_paths reference.
Proof.
  intros Hr Ht Hd Hsame. exists (align reference target). split.
  - by apply align_json_refines.
  - by apply key_paths_align_same_keys.
Qed.

Lemma align_json_reference_order_reordered :
  ∃ out, align_json 3 reordered_reference reordered_target = Ok out
    ∧ key_paths out = [["a"]; ["b"]; ["b"; "c"]; ["b"; "d"]].
Proof.
  apply (align_json_reference_order 3 reordered_reference reordered_target);
    [reflexivity | reflexivity | simpl; lia |].
  intros ks. cbn. rewrite !elem_of_cons, !elem_of_nil. tauto.
Defined.

(** ** Documents without a common key *)

Lemma not_inserted_nil t : not_inserted [] t = t.
Proof.
  unfold not_inserted. induction t as [|kv t IH]; [done|].
  rewrite filter_cons_True by apply not_elem_of_nil. by rewrite IH.
Qed.

Lemma for_each_skip {S K} (keys : list K) (body : S → K → result S) s :
  (∀ key, key ∈ keys → body s key = Ok s) → for_each keys body s = Ok s.
Proof.
  induction keys as [|key keys IH]; intros Hbody; simpl; [done|].
  rewrite Hbody by left. run_result. apply IH.
  intros key' Hin. apply Hbody. by right.
Qed.

(** X5. When no key of the template is a key of the target (an empty template
    or an empty target included), one call returns the target's mapping
    as it is, in its own order. *)
Theorem align_json_no_common_key fuel tpl tgt :
  NoDup (dict_keys tgt) →
  (∀ k, k ∈ dict_keys tpl → k ∉ dict_keys tgt) →
  align_json (S fuel) (JDict tpl) (JDict tgt) = Ok (JDict tgt).
Proof.
  intros Hnd Hdisjoint. cbn [align_json].
  rewrite for_each_skip.
  - run_result.
    rewrite (rest_loop tgt tgt); [|intros k v; by apply dict_get_NoDup|done].
    by rewrite not_inserted_nil.
  - intros key Hin.
    by rewrite (proj2 (dict_contains_false key tgt) (Hdisjoint key Hin)).
Qed.

Lemma align_json_no_common_key_empty_template :
  align_json 1 (JDict []) scenario3_target = Ok scenario3_target.
Proof.
  apply (align_json_no_common_key 0 []).
  - apply (bool_decide_unpack _). by vm_compute.
  - intros k Hk. by apply elem_of_nil in Hk.
Defined.

(** ** The report of [check_keys.py] *)

(** X6. Running [check_keys.py] on the reference and the aligned document
    prints what it prints on the reference and the original target: the
    aligner neither supplies a missing key nor removes a surplus one. *)
Theorem check_keys_after_align fuel reference target :
  wf reference = true → wf target = true → depth reference < fuel →
  ∃ out, align_json fuel reference target = Ok out
    ∧ check_keys_prints reference out = check_keys_prints reference target
    ∧ check_keys_stdout reference out = check_keys_stdout reference target.
Proof.
  intros Hr Ht Hd. exists (align reference target). split_and!.
  - by apply align_json_refines.
  - unfold check_keys_prints. by rewrite get_paths_align.
  - unfold check_keys_stdout, check_keys_prints. by rewrite get_paths_align.
Qed.

Lemma check_keys_after_align_scenario3 :
  ∃ out, align_json 3 scenario3_reference scenario3_target = Ok out
    ∧ check_keys_stdout scenario3_reference out
      = check_keys_stdout scenario3_reference scenario3_target.
Proof.
  destruct (check_keys_after_align 3 scenario3_reference scenario3_target)
    as (out & Hout & _ & Hstdout); [reflexivity | reflexivity | simpl; lia |].
  exists out. split; [exact Hout | exact Hstdout].
Defined.

Lemma sorted_difference_nil (X Y : gset string) :
  sorted (elements (X ∖ Y)) = [] ↔ X ⊆ Y.
Proof.
  split.
  - intros Hnil p Hp. destruct (decide (p ∈ Y)) as [|Hn]; [done|].
    assert (p ∈ sorted (elements (X ∖ Y))) as Hin
      by (by apply elem_of_sorted_difference).
    rewrite Hnil in Hin. by apply elem_of_nil in Hin.
  - intros Hsub. apply elem_of_nil_inv. intros p.
    rewrite elem_of_sorted_difference. intros [Hp Hn]. by apply Hn, Hsub.
Qed.

(** X7. The script prints the two headers with a count of zero and nothing
    else exactly when the two documents have the same set of paths. *)
Theorem check_keys_prints_nothing data_en data_fr :
  check_keys_prints data_en data_fr
  = ["--- CLÉS MANQUANTES EN FRANÇAIS (0) ---";
     newline +:+ "--- CLÉS EN TROP EN FRANÇAIS (0) ---"]
  ↔ get_paths data_en "" = get_paths data_fr "".
Proof.
  unfold check_keys_prints, missing_in_fr, extra_in_fr.
  set (en_keys := get_paths data_en "").
  set (fr_keys := get_paths data_fr "").
  split.
  - intros Hprints. apply (f_equal length) in Hprints.
    rewrite !length_app, !length_fmap in Hprints. simpl in Hprints.
    assert (sorted (elements (en_keys ∖ fr_keys)) = []) as Hmissing
      by (apply length_zero_iff_nil; lia).
    assert (sorted (elements (fr_keys ∖ en_keys)) = []) as Hextra
      by (apply length_zero_iff_nil; lia).
    apply sorted_difference_nil in Hmissing, Hextra.
    apply set_eq. intros p. split; [apply Hmissing | apply Hextra].
  - intros ->.
    by rewrite (proj2 (sorted_difference_nil fr_keys fr_keys)).
Qed.

(** ** Paths under a prefix, and keys without the separator *)

(** X8. Called with a non-empty prefix on a document whose root keys are
    non-empty, [get_paths] returns the paths of the call without prefix,
    each behind the prefix and a dot. *)
Theorem get_paths_under_prefix document current_path :
  current_path ≠ "" → "" ∉ root_keys document →
  get_paths document current_path
  = set_map (λ path, current_path +:+ "." +:+ path) (get_paths document "").
Proof.
  intros Hp Hroot. rewrite get_paths_prefixed, get_paths_dotted by done.
  unfold collectPaths_spec. apply set_eq. intros s.
  rewrite elem_of_map, elem_of_list_to_set, list_elem_of_fmap.
  setoid_rewrite elem_of_list_to_set. setoid_rewrite list_elem_of_fmap.
  split.
  - intros (ks & -> & Hks). exists (dotted ks). eauto.
  - intros (path & -> & ks & -> & Hks). eauto.
Qed.

Lemma get_paths_under_prefix_scenario3 :
  get_paths scenario3_reference "menu"
  = set_map (λ path, "menu" +:+ "." +:+ path) (get_paths scenario3_reference "").
Proof.
  apply (get_paths_under_prefix scenario3_reference "menu"); [done|].
  cbn. rewrite !elem_of_cons, elem_of_nil.
  intros [?|[?|?]]; done.
Defined.

Lemma string_app_cons c (a b : string) : String c a +:+ b = String c (a +:+ b).
Proof. done. Qed.

Lemma dot_free_separated (a x : string) : dot_free (a +:+ "." +:+ x) = false.
Proof.
  induction a as [|c a IH]; [done|].
  rewrite string_app_cons. simpl. rewrite IH. apply andb_false_r.
Qed.

Lemma dot_free_app_inj (a b x y : string) :
  dot_free a = true → dot_free b = true →
  a +:+ "." +:+ x = b +:+ "." +:+ y → a = b ∧ x = y.
Proof.
  revert b. induction a as [|c a IH]; intros [|c' b] Ha Hb.
  - intros Heq. change (String "." x = String "." y) in Heq.
    by injection Heq as ->.
  - intros Heq.
    change (String "." x = String c' (b +:+ "." +:+ y)) in Heq.
    injection Heq as <- _. done.
  - intros Heq.
    change (String c (a +:+ "." +:+ x) = String "." y) in Heq.
    injection Heq as -> _. done.
  - rewrite !string_app_cons. intros [= -> Heq].
    simpl in Ha, Hb. apply andb_true_iff in Ha as [_ Ha].
    apply andb_true_iff in Hb as [_ Hb].
    destruct (IH b Ha Hb Heq) as [-> ->]. done.
Qed.

(** Key sequences of keys without a dot have different dotted paths. *)
Lemma dotted_inj ks : ∀ ks',
  ks ≠ [] → ks' ≠ [] →
  forallb dot_free ks = true → forallb dot_free ks' = true →
  dotted ks = dotted ks' → ks = ks'.
Proof.
  induction ks as [|k ks IH]; intros [|k' ks'] Hne Hne' Hks Hks' Heq;
    try done.
  simpl in Hks, Hks'.
  apply andb_true_iff in Hks as [Hk Hks].
  apply andb_true_iff in Hks' as [Hk' Hks'].
  destruct ks as [|k2 ks], ks' as [|k2' ks'].
  - unfold dotted in Heq. simpl in Heq. by subst.
  - rewrite (dotted_cons k') in Heq by done.
    unfold dotted at 1 in Heq. simpl in Heq. subst k.
    by rewrite dot_free_separated in Hk.
  - rewrite (dotted_cons k) in Heq by done.
    unfold dotted at 2 in Heq. simpl in Heq. subst k'.
    by rewrite dot_free_separated in Hk'.
  - rewrite (dotted_cons k), (dotted_cons k') in Heq by done.
    apply dot_free_app_inj in Heq as [-> Heq]; [|done..].
    f_equal. by apply IH.
Qed.

Lemma sorted_difference_dotted en fr p :
  keys_dot_free en = true → keys_dot_free fr = true →
  "" ∉ root_keys en → "" ∉ root_keys fr →
  p ∈ sorted (elements (get_paths en "" ∖ get_paths fr "")) ↔
  ∃ ks, p = dotted ks ∧ ks ∈ key_paths en ∧ ks ∉ key_paths fr.
Proof.
  intros Hen Hfr Hren Hrfr.
  rewrite elem_of_sorted_difference, !get_paths_dotted by done.
  unfold collectPaths_spec.
  rewrite !elem_of_list_to_set, !list_elem_of_fmap.
  unfold keys_dot_free in Hen, Hfr. rewrite forallb_forall in Hen, Hfr.
  split.
  - intros [(ks & -> & Hks) Hn]. exists ks. split_and!; [done..|].
    intros Hks'. apply Hn. eauto.
  - intros (ks & -> & Hks & Hn). split; [eauto|].
    intros (ks' & Heq & Hks'). apply Hn.
    rewrite (dotted_inj ks ks'); [done| | |by apply Hen, list_elem_of_In
      |by apply Hfr, list_elem_of_In|done].
    + intros ->. by apply key_paths_nonempty in Hks.
    + intros ->. by apply key_paths_nonempty in Hks'.
Qed.

(** X9. For two documents whose keys hold no dot and whose root keys are not
    empty, the report is exact: a path is listed as missing exactly when
    it is the dotted path of a key sequence that the first document has
    and the second lacks, and as surplus exactly the other way round. *)
Theorem check_keys_exact data_en data_fr :
  keys_dot_free data_en = true → keys_dot_free data_fr = true →
  "" ∉ root_keys data_en → "" ∉ root_keys data_fr →
  (∀ p, p ∈ missing_in_fr (get_paths data_en "") (get_paths data_fr "") ↔
        ∃ ks, p = dotted ks ∧ ks ∈ key_paths data_en ∧ ks ∉ key_paths data_fr)
  ∧ (∀ p, p ∈ extra_in_fr (get_paths data_en "") (get_paths data_fr "") ↔
        ∃ ks, p = dotted ks ∧ ks ∈ key_paths data_fr ∧ ks ∉ key_paths data_en).
Proof.
  intros Hen Hfr Hren Hrfr. unfold missing_in_fr, extra_in_fr.
  split; intros p; by apply sorted_difference_dotted.
Qed.

Lemma check_keys_exact_scenario3 :
  "b.c" ∈ missing_in_fr (get_paths scenario3_reference "")
            (get_paths scenario3_target "").
Proof.
  destruct (check_keys_exact scenario3_reference scenario3_target)
    as [Hmissing _]; [reflexivity | reflexivity | | |].
  - cbn. rewrite !elem_of_cons, elem_of_nil. intros [?|[?|?]]; done.
  - cbn. rewrite !elem_of_cons, elem_of_nil. intros [?|[?|?]]; done.
  - apply Hmissing. exists ["b"; "c"]. split_and!; [done| |].
    + cbn. rewrite !elem_of_cons. auto.
    + cbn. rewrite !elem_of_cons, elem_of_nil.
      intros [?|[?|[?|?]]]; done.
Defined.
